(** * v1util/zip.go: a shallow embedding of the gzip helpers of
    go-containerregistry (GzipReadCloser, GzipReadCloserLevel,
    GunzipReadCloser, IsGzipped) and their properties. *)

From Stdlib Require Import List Bool ZArith Lia Strings.Byte.
Import ListNotations.
Open Scope list_scope.

(** ** Errors

    The Go [error] values the code distinguishes: [io.EOF],
    [io.ErrClosedPipe], and any other error, identified by a number. *)
Inductive error :=
| EOF
| ErrClosedPipe
| Err (n : nat).

Definition error_eqb (a b : error) : bool :=
  match a, b with
  | EOF, EOF => true
  | ErrClosedPipe, ErrClosedPipe => true
  | Err n, Err m => Nat.eqb n m
  | _, _ => false
  end.

Definition is_eof (e : error) : bool := error_eqb e EOF.

(** ** Format sniffer *)

(** [var gzipMagicHeader = []byte{'\x1f', '\x8b'}] *)
Definition gzipMagicHeader : list Byte.byte := [Byte.x1f; Byte.x8b].

(** [bytes.Equal] *)
Fixpoint bytes_Equal (a b : list Byte.byte) : bool :=
  match a, b with
  | [], [] => true
  | x :: a', y :: b' => Byte.eqb x y && bytes_Equal a' b'
  | _, _ => false
  end.

(** A reader, seen through its successive [Read] calls: each call returns
    the bytes it copies into the caller's buffer and an error ([None] for
    [nil]). The io.Reader contract allows a call to return fewer bytes than
    asked, and to return data together with an error. *)
Definition read_result := (list Byte.byte * option error)%type.

(** The reader's answer to [r.Read(p)] with [len(p) = k]: a reader never
    copies more than [len(p)] bytes. *)
Definition Read (r : list read_result) (k : nat) : read_result :=
  match r with
  | [] => ([], Some EOF)
  | (bs, e) :: _ => (firstn k bs, e)
  end.

(** [copy(p, bs)]: writes [bs] over the start of [p]. *)
Definition copy_into (p bs : list Byte.byte) : list Byte.byte :=
  bs ++ skipn (length bs) p.

(** [r.Read(p)] as the caller's buffer sees it afterwards, with [n] and
    [err]: the reader copies the bytes it returns over the start of [p]. The
    io.Reader contract lets it use all of [p] as scratch space during the
    call, so what is left in [p[n:]] is up to the reader: [scratch] is what
    the reader writes over the start of [p] before its data ([scratch = []]
    leaves [p[n:]] as it was). *)
Definition Read_into (r : list read_result) (scratch p : list Byte.byte)
  : list Byte.byte * nat * option error :=
  let '(bs, err) := Read r (length p) in
  (copy_into (copy_into p (firstn (length p) scratch)) bs, length bs, err).

(** [IsGzipped], for a reader [r] whose [Read] leaves [scratch] in the
    part of the buffer it does not fill:
<<
    magicHeader := make([]byte, 2)
    n, err := r.Read(magicHeader)
    if n == 0 && err == io.EOF { return false, nil }
    if err != nil { return false, err }
    return bytes.Equal(magicHeader, gzipMagicHeader), nil
>> *)
Definition IsGzipped (r : list read_result) (scratch : list Byte.byte) : bool * option error :=
  let magicHeader := [Byte.x00; Byte.x00] in
  let '(magicHeader, n, err) := Read_into r scratch magicHeader in
  if Nat.eqb n 0 && match err with Some e => is_eof e | None => false end
  then (false, None)
  else match err with
       | Some e => (false, Some e)
       | None => (bytes_Equal magicHeader gzipMagicHeader, None)
       end.

(** The bytes a reader delivers before its stream ends. *)
Fixpoint contents (r : list read_result) : list Byte.byte :=
  match r with
  | [] => []
  | (bs, Some _) :: _ => bs
  | (bs, None) :: r' => bs ++ contents r'
  end.

Example IsGzipped_ex1 :
  IsGzipped [([Byte.x1f; Byte.x8b; Byte.x08], None)] [] = (true, None).
Proof. reflexivity. Qed.

(** A reader that returns one byte and leaves the byte it used as scratch
    space behind makes the buffer match. *)
Example IsGzipped_ex2 :
  IsGzipped [([Byte.x1f], None); ([Byte.x8b], None)] [Byte.x00; Byte.x8b] = (true, None).
Proof. reflexivity. Qed.

(** ** Resources, pipe and the producer's world *)

(** Observable steps of the code: reads of the input source, the result of
    [io.Copy], and every release operation. *)
Inductive event :=
| ReadSrc                          (* r.Read, inside io.Copy *)
| CopyDone (e : option error)      (* io.Copy returns err *)
| CloseGw                          (* gw.Close() *)
| CloseR                           (* r.Close() *)
| ClosePw                          (* pw.Close() *)
| ClosePwWithError (e : error)     (* pw.CloseWithError(e) *)
| CloseGr.                         (* gr.Close() *)

(** The state the code acts on. The pipe ([io.Pipe]) is its delivered bytes
    and its two [onceError]s [werr] and [rerr]; its [done] channel is closed
    once either is set. The consumer of the read end is [budget]: [None]
    when it reads until the stream ends, [Some k] when it accepts [k] more
    writes and then closes its end ([pr.Close()]). [r_close_result] and
    [gr_close_result] are what [Close] returns on the input source and on
    the gzip reader. *)
Record world := mkWorld {
  budget : option nat;
  r_close_result : option error;
  gr_close_result : option error;
  pipe_data : list Byte.byte;
  pipe_werr : option error;
  pipe_rerr : option error;
  trace : list event
}.

Definition M (A : Type) := world -> A * world.
Definition ret {A} (a : A) : M A := fun w => (a, w).
Definition bind {A B} (m : M A) (k : A -> M B) : M B :=
  fun w => let '(a, w') := m w in k a w'.
Definition exec {A} (m : M A) (w : world) : world := snd (m w).

Notation "x <- m ;; k" := (bind m (fun x => k))
  (at level 61, m at next level, right associativity).
Notation "' p <- m ;; k" := (bind m (fun x => match x with p => k end))
  (at level 61, p pattern, m at next level, right associativity).
Notation "m ;; k" := (bind m (fun _ => k)) (at level 61, right associativity).

Definition get : M world := fun w => (w, w).
Definition put (w : world) : M unit := fun _ => (tt, w).

Definition set_pipe (d : list Byte.byte) (we re : option error) : M unit :=
  w <- get ;;
  put (mkWorld (budget w) (r_close_result w) (gr_close_result w) d we re (trace w)).

Definition set_budget (b : option nat) : M unit :=
  w <- get ;;
  put (mkWorld b (r_close_result w) (gr_close_result w)
         (pipe_data w) (pipe_werr w) (pipe_rerr w) (trace w)).

Definition log (ev : event) : M unit :=
  w <- get ;;
  put (mkWorld (budget w) (r_close_result w) (gr_close_result w)
         (pipe_data w) (pipe_werr w) (pipe_rerr w) (trace w ++ [ev])).

(** [onceError.Store]: keeps the first error stored. *)
Definition once_store (cur : option error) (e : error) : option error :=
  match cur with Some _ => cur | None => Some e end.

(** [io.Pipe()]: a new pipe, nothing delivered, no end closed. *)
Definition Pipe : M unit := set_pipe [] None None.

Definition pipe_done (w : world) : bool :=
  match pipe_werr w, pipe_rerr w with None, None => false | _, _ => true end.

(** [p.readCloseError()] *)
Definition readCloseError (w : world) : error :=
  match pipe_rerr w, pipe_werr w with
  | None, Some werr => werr
  | _, _ => ErrClosedPipe
  end.

(** [p.writeCloseError()] *)
Definition writeCloseError (w : world) : error :=
  match pipe_werr w, pipe_rerr w with
  | None, Some rerr => rerr
  | _, _ => ErrClosedPipe
  end.

(** [p.closeWrite(err)]: [pw.Close()] is [closeWrite(nil)], i.e. [EOF]. *)
Definition closeWrite (err : error) : M (option error) :=
  w <- get ;;
  set_pipe (pipe_data w) (once_store (pipe_werr w) err) (pipe_rerr w) ;;
  ret None.

(** [p.closeRead(nil)]: the consumer's [pr.Close()]. *)
Definition closeRead : M unit :=
  w <- get ;;
  set_pipe (pipe_data w) (pipe_werr w) (once_store (pipe_rerr w) ErrClosedPipe).

Definition pw_Close : M (option error) := log ClosePw ;; closeWrite EOF.
Definition pw_CloseWithError (err : error) : M (option error) :=
  log (ClosePwWithError err) ;; closeWrite err.

(** [pw.Write(b)]: fails once [done] is closed; otherwise blocks until the
    consumer takes the bytes, or until the consumer closes its end. *)
Definition pw_Write (b : list Byte.byte) : M (option error) :=
  w <- get ;;
  if pipe_done w then ret (Some (writeCloseError w))
  else match budget w with
       | Some 0 => closeRead ;; w' <- get ;; ret (Some (writeCloseError w'))
       | Some (S k) =>
           set_budget (Some k) ;; set_pipe (pipe_data w ++ b) (pipe_werr w) (pipe_rerr w) ;;
           ret None
       | None => set_pipe (pipe_data w ++ b) (pipe_werr w) (pipe_rerr w) ;; ret None
       end.

(** [r.Close()] and [gr.Close()] *)
Definition r_Close : M (option error) :=
  log CloseR ;; w <- get ;; ret (r_close_result w).
Definition gr_Close : M (option error) :=
  log CloseGr ;; w <- get ;; ret (gr_close_result w).

(** Go's [defer]: the deferred calls, listed in the order the [defer]
    statements run, are called in reverse order once the return value has
    been computed; their results are dropped. *)
Fixpoint run_deferred (ds : list (M (option error))) : M unit :=
  match ds with
  | [] => ret tt
  | d :: ds' => d ;; run_deferred ds'
  end.

Definition go_return {A} (deferred : list (M (option error))) (result : M A) : M A :=
  x <- result ;; run_deferred (rev deferred) ;; ret x.

(** The writes a [gzip.Writer] call makes on its underlying writer [pw]:
    in order, up to the first that fails, whose error the call returns
    (and keeps in [z.err]). *)
Fixpoint pw_Writes (outs : list (list Byte.byte)) : M (option error) :=
  match outs with
  | [] => ret None
  | b :: outs' =>
      e <- pw_Write b ;;
      match e with
      | Some e => ret (Some e)
      | None => pw_Writes outs'
      end
  end.

(** ** The gzip codec, the bridge and the decompressing wrapper

    compress/gzip is not part of this repository: it enters as the
    operations the code calls. [compressor_new level] is
    [gzip.NewWriterLevel]'s construction (a state, or the error for an
    invalid level); [compressor_write] and [compressor_close] are the
    writes the writer makes on its underlying writer during a [Write] and
    during [Close], each a list of byte slices, one per underlying [Write]
    call (the header is written by the first [Write]; the compressor may
    buffer, so a call may make no write at all; [Close] flushes and writes
    the trailer). [gunzip] is [gzip.NewReader] followed by reads to the end: for
    the bytes and final error of the underlying source, the construction
    error, or the decompressed bytes and final error. *)
Section Zip.

Variable cst : Type.
Variable compressor_new : Z -> cst + error.
Variable compressor_write : cst -> list Byte.byte -> cst * list (list Byte.byte).
Variable compressor_close : cst -> list (list Byte.byte).
Variable gunzip : list Byte.byte * error -> (list Byte.byte * error) + error.

(** [*gzip.Writer]: codec state, sticky [z.err], [z.closed]. *)
Record gzwriter := mkGz { gz_st : cst; gz_err : option error; gz_closed : bool }.

(** [gw.Write(p)] *)
Definition gw_Write (z : gzwriter) (p : list Byte.byte) : M (gzwriter * option error) :=
  match gz_err z with
  | Some e => ret (z, Some e)
  | None =>
      let '(st', outs) := compressor_write (gz_st z) p in
      e <- pw_Writes outs ;;
      ret (mkGz st' e (gz_closed z), e)
  end.

(** [gw.Close()]: flushes the compressor and writes the trailer into the
    pipe. *)
Definition gw_Close (z : gzwriter) : M (option error) :=
  log CloseGw ;;
  match gz_err z with
  | Some e => ret (Some e)
  | None =>
      if gz_closed z then ret None
      else pw_Writes (compressor_close (gz_st z))
  end.

(** [io.Copy(gw, r)]: each element of [r] is what one [r.Read(buf)] call
    returns (at most the 32 KiB buffer); past the end, [Read] returns
    [0, io.EOF]. Bytes read are written before the read error is looked
    at; [io.EOF] ends the copy without error. *)
Fixpoint io_Copy (z : gzwriter) (r : list read_result) : M (gzwriter * option error) :=
  match r with
  | [] => log ReadSrc ;; ret (z, None)
  | (bs, er) :: r' =>
      log ReadSrc ;;
      '(z', ew) <- (match bs with [] => ret (z, None) | _ => gw_Write z bs end) ;;
      match ew with
      | Some e => ret (z', Some e)
      | None =>
          match er with
          | Some e => ret (z', if is_eof e then None else Some e)
          | None => io_Copy z' r'
          end
      end
  end.

(** The goroutine started by [GzipReadCloserLevel]:
<<
    gw, err := gzip.NewWriterLevel(pw, level)
    if err != nil { return pw.CloseWithError(err) }
    if _, err := io.Copy(gw, r); err != nil {
        defer r.Close()
        defer gw.Close()
        return pw.CloseWithError(err)
    }
    defer pw.Close()
    defer r.Close()
    defer gw.Close()
    return nil
>> *)
Definition producer (r : list read_result) (level : Z) : M (option error) :=
  match compressor_new level with
  | inr err => pw_CloseWithError err
  | inl st =>
      '(gw, err) <- io_Copy (mkGz st None false) r ;;
      log (CopyDone err) ;;
      match err with
      | Some err => go_return [r_Close; gw_Close gw] (pw_CloseWithError err)
      | None => go_return [pw_Close; r_Close; gw_Close gw] (ret None)
      end
  end.

(** [GzipReadCloserLevel(r, level)]: creates the pipe, runs the producer
    (the consumer's side of the interleaving is the world's [budget]) and
    returns the pipe's read end. What the consumer observes through it is
    [consumer_view]. *)
Definition GzipReadCloserLevel (r : list read_result) (level : Z) : M unit :=
  Pipe ;; producer r level ;; ret tt.

(** [gzip.BestSpeed] *)
Definition BestSpeed : Z := 1.

(** [GzipReadCloser(r)] *)
Definition GzipReadCloser (r : list read_result) : M unit :=
  GzipReadCloserLevel r BestSpeed.

(** [readAndCloser]: its reads (seen as the bytes they deliver and the
    final error) and its [CloseFunc]. *)
Record readAndCloser := mkReadAndCloser {
  rc_Reader : list Byte.byte * error;
  CloseFunc : M (option error)
}.

(** [GunzipReadCloser(r)], for a source [r] seen as the bytes it delivers
    and its final error:
<<
    gr, err := gzip.NewReader(r)
    if err != nil { return nil, err }
    return &readAndCloser{
        Reader: gr,
        CloseFunc: func() error {
            if err := gr.Close(); err != nil { return err }
            return r.Close()
        },
    }, nil
>> *)
Definition GunzipReadCloser (r : list Byte.byte * error) : option readAndCloser * option error :=
  match gunzip r with
  | inr err => (None, Some err)
  | inl gr =>
      (Some (mkReadAndCloser gr
               (e <- gr_Close ;;
                match e with
                | Some err => ret (Some err)
                | None => r_Close
                end)), None)
  end.

(** The bytes the codec writes for a sequence of writes followed by a
    close. *)
Fixpoint codec_output (st : cst) (ws : list (list Byte.byte)) : list Byte.byte :=
  match ws with
  | [] => concat (compressor_close st)
  | p :: ws' => let '(st', outs) := compressor_write st p in concat outs ++ codec_output st' ws'
  end.

(** The codec's state and the bytes it writes for a sequence of writes,
    without a close. *)
Fixpoint codec_run (st : cst) (ws : list (list Byte.byte)) : cst * list Byte.byte :=
  match ws with
  | [] => (st, [])
  | p :: ws' =>
      let '(st', outs) := compressor_write st p in
      let '(st'', out) := codec_run st' ws' in
      (st'', concat outs ++ out)
  end.

End Zip.

(** What the consumer of the pipe's read end observes: the bytes delivered,
    then the error its next read returns once the pipe is done. *)
Definition consumer_view (w : world) : list Byte.byte * error :=
  (pipe_data w, readCloseError w).

(** A world where nothing has happened yet. *)
Definition world0 (b : option nat) (rres grres : option error) : world :=
  mkWorld b rres grres [] None None [].

(** ** A concrete codec for evaluating the model

    A "stored" gzip-like codec: the two magic bytes before the first
    output, written on their own, then the data unchanged, one write per
    [Write], and a one-byte trailer. Levels are checked as
    [gzip.NewWriterLevel] does ([HuffmanOnly] = -2 up to
    [BestCompression] = 9). *)
Definition stored_new (level : Z) : bool + error :=
  if ((-2 <=? level) && (level <=? 9))%Z then inl false else inr (Err 1).

Definition stored_write (wrote : bool) (p : list Byte.byte) : bool * list (list Byte.byte) :=
  (true, (if wrote then [] else [gzipMagicHeader]) ++ [p]).

Definition stored_close (wrote : bool) : list (list Byte.byte) :=
  (if wrote then [] else [gzipMagicHeader]) ++ [[Byte.x00]].

Definition stored_gunzip (s : list Byte.byte * error) : (list Byte.byte * error) + error :=
  let '(bs, e) := s in
  match bs with
  | b0 :: b1 :: rest =>
      if Byte.eqb b0 Byte.x1f && Byte.eqb b1 Byte.x8b then
        if is_eof e then
          match rev rest with
          | t :: body => if Byte.eqb t Byte.x00 then inl (rev body, EOF) else inl (rest, Err 3)
          | [] => inl ([], Err 3)
          end
        else inl (rest, e)
      else inr (Err 2)
  | _ => inr (if is_eof e then Err 3 else e)
  end.

Definition bridge (r : list read_result) (level : Z) : M unit :=
  GzipReadCloserLevel bool stored_new stored_write stored_close r level.

Example bridge_ex_ok :
  let w := exec (bridge [([Byte.x41], None); ([Byte.x42], None)] 1) (world0 None None None) in
  trace w = [ReadSrc; ReadSrc; ReadSrc; CopyDone None; CloseGw; CloseR; ClosePw]
  /\ consumer_view w = ([Byte.x1f; Byte.x8b; Byte.x41; Byte.x42; Byte.x00], EOF).
Proof. split; reflexivity. Qed.

Example bridge_ex_err :
  let w := exec (bridge [([Byte.x41], None); ([Byte.x42], Some (Err 7))] 1) (world0 None None None) in
  trace w = [ReadSrc; ReadSrc; CopyDone (Some (Err 7)); ClosePwWithError (Err 7); CloseGw; CloseR]
  /\ consumer_view w = ([Byte.x1f; Byte.x8b; Byte.x41; Byte.x42], Err 7).
Proof. split; reflexivity. Qed.

Example bridge_ex_abandon :
  let w := exec (bridge [([Byte.x41], None); ([Byte.x42], None)] 1) (world0 (Some 1) None None) in
  trace w = [ReadSrc; CopyDone (Some ErrClosedPipe); ClosePwWithError ErrClosedPipe; CloseGw; CloseR]
  /\ consumer_view w = ([Byte.x1f; Byte.x8b], ErrClosedPipe).
Proof. split; reflexivity. Qed.

Example bridge_ex_level :
  let w := exec (bridge [([Byte.x41], None)] 10) (world0 None None None) in
  trace w = [ClosePwWithError (Err 1)] /\ consumer_view w = ([], Err 1).
Proof. split; reflexivity. Qed.

(** ** Event order in a trace *)

Definition event_eqb (a b : event) : bool :=
  match a, b with
  | ReadSrc, ReadSrc | CloseGw, CloseGw | CloseR, CloseR
  | ClosePw, ClosePw | CloseGr, CloseGr => true
  | CopyDone None, CopyDone None => true
  | CopyDone (Some e), CopyDone (Some e') => error_eqb e e'
  | ClosePwWithError e, ClosePwWithError e' => error_eqb e e'
  | _, _ => false
  end.

(** [before a b tr]: [a] occurs in [tr], and [b] occurs after its first
    occurrence. *)
Fixpoint before (a b : event) (tr : list event) : bool :=
  match tr with
  | [] => false
  | x :: tr' => if event_eqb x a then existsb (event_eqb b) tr' else before a b tr'
  end.

(** ** Facts about the sniffer *)

(** C7: when the one [Read] call of [IsGzipped] returns fewer than 2
    bytes and no error, and the reader leaves the rest of the buffer as it
    was, [IsGzipped] reports no match, whatever the source holds: a gzip
    stream whose first [Read] is short is reported as not compressed. *)
Theorem IsGzipped_short_first_read (r : list read_result)
    (Hshort : length (fst (Read r 2)) < 2) (Hok : snd (Read r 2) = None) :
  IsGzipped r [] = (false, None).
Proof.
  unfold IsGzipped, Read_into. simpl length.
  destruct (Read r 2) as [bs e]. simpl in Hshort, Hok. subst e.
  destruct bs as [|b [|b' bs]]; simpl in Hshort |- *; [reflexivity| |lia].
  rewrite andb_false_r. reflexivity.
Qed.

(** C8: when the first [Read] returns no bytes and [io.EOF], [IsGzipped]
    reports no match and no error, whatever the reader leaves in the
    buffer. *)
Theorem IsGzipped_empty (r : list read_result) (scratch : list Byte.byte)
    (H : Read r 2 = ([], Some EOF)) :
  IsGzipped r scratch = (false, None).
Proof. unfold IsGzipped, Read_into. simpl length. rewrite H. reflexivity. Qed.

(** C9: a one-byte source whose [Read] returns its byte together with
    [io.EOF] (the io.Reader contract allows it) makes [IsGzipped] return
    [io.EOF] as an error, where the same source returning [0, io.EOF] on a
    second call gives a clean non-match. *)
Theorem IsGzipped_byte_with_eof (b : Byte.byte) (rest : list read_result)
    (scratch : list Byte.byte) :
  length (contents (([b], Some EOF) :: rest)) = 1
  /\ IsGzipped (([b], Some EOF) :: rest) scratch = (false, Some EOF).
Proof. split; reflexivity. Qed.

(** ** Facts about the pipe *)

Ltac unfold_M :=
  unfold exec, bind, ret, get, put, log, set_pipe, set_budget, closeRead, closeWrite in *.

(** The pipe ends as the producer may find them: its write end not closed,
    its read end open or closed by the consumer's [pr.Close()]. *)
Definition pipe_writable (w : world) : Prop :=
  pipe_werr w = None /\ (pipe_rerr w = None \/ pipe_rerr w = Some ErrClosedPipe).

Lemma pw_Write_trace (b : list Byte.byte) (w : world) :
  trace (snd (pw_Write b w)) = trace w.
Proof.
  unfold pw_Write; unfold_M; simpl.
  destruct (pipe_done w); [reflexivity|].
  destruct (budget w) as [[|k]|]; reflexivity.
Qed.

Lemma pw_Write_done (b : list Byte.byte) (w : world) :
  pipe_done w = true -> snd (pw_Write b w) = w.
Proof. intro H. unfold pw_Write; unfold_M; simpl. now rewrite H. Qed.

Lemma pw_Write_writable (b : list Byte.byte) (w : world) :
  pipe_writable w ->
  pipe_writable (snd (pw_Write b w))
  /\ (forall e, fst (pw_Write b w) = Some e -> e = ErrClosedPipe).
Proof.
  intros [Hw Hr]. unfold pw_Write; unfold_M; simpl.
  unfold pipe_done, writeCloseError; rewrite Hw.
  destruct Hr as [Hr|Hr]; rewrite Hr; simpl.
  - destruct (budget w) as [[|k]|]; simpl; unfold pipe_writable; simpl;
      rewrite ?Hw, ?Hr; simpl;
      (split; [split; auto|]); intros e He; try discriminate; now injection He.
  - split; [split; auto|]. intros e He. now injection He.
Qed.

(** With a consumer that reads everything, a write on an open pipe delivers
    its bytes. *)
Lemma pw_Write_deliver (b : list Byte.byte) (w : world) :
  budget w = None -> pipe_werr w = None -> pipe_rerr w = None ->
  pw_Write b w
  = (None, mkWorld None (r_close_result w) (gr_close_result w)
             (pipe_data w ++ b) None None (trace w)).
Proof.
  intros Hb Hw Hr. unfold pw_Write; unfold_M; simpl.
  unfold pipe_done; rewrite Hw, Hr, Hb. simpl. now rewrite Hb.
Qed.
Lemma pw_Writes_trace (outs : list (list Byte.byte)) (w : world) :
  trace (snd (pw_Writes outs w)) = trace w.
Proof.
  revert w; induction outs as [|b outs IH]; intro w; [reflexivity|].
  simpl. unfold bind. rewrite <- (pw_Write_trace b w).
  destruct (pw_Write b w) as [[e|] w1]; simpl; [reflexivity|apply IH].
Qed.

Lemma pw_Writes_done (outs : list (list Byte.byte)) (w : world) :
  pipe_done w = true -> snd (pw_Writes outs w) = w.
Proof.
  intro H. destruct outs as [|b outs]; [reflexivity|].
  simpl. unfold bind. pose proof (pw_Write_done b w H) as Hw.
  unfold pw_Write in *; unfold_M; simpl in *. rewrite H in *. reflexivity.
Qed.

Lemma pw_Writes_writable (outs : list (list Byte.byte)) (w : world) :
  pipe_writable w ->
  pipe_writable (snd (pw_Writes outs w))
  /\ (forall e, fst (pw_Writes outs w) = Some e -> e = ErrClosedPipe).
Proof.
  revert w; induction outs as [|b outs IH]; intros w Hw.
  - split; [exact Hw|discriminate].
  - simpl. unfold bind.
    pose proof (pw_Write_writable b w Hw) as [Hw1 He1].
    destruct (pw_Write b w) as [[e|] w1]; simpl in *.
    + split; [exact Hw1|]. intros e' He'. injection He' as <-. exact (He1 e eq_refl).
    + exact (IH w1 Hw1).
Qed.

(** With a consumer that reads everything, the writes on an open pipe
    deliver all their bytes. *)
Lemma pw_Writes_deliver (outs : list (list Byte.byte)) (w : world) :
  budget w = None -> pipe_werr w = None -> pipe_rerr w = None ->
  pw_Writes outs w
  = (None, mkWorld None (r_close_result w) (gr_close_result w)
             (pipe_data w ++ concat outs) None None (trace w)).
Proof.
  revert w; induction outs as [|b outs IH]; intros w Hb Hw Hr.
  - simpl. rewrite app_nil_r. destruct w; simpl in *; subst; reflexivity.
  - simpl. unfold bind. rewrite pw_Write_deliver by assumption.
    rewrite IH by reflexivity. simpl. rewrite app_assoc. reflexivity.
Qed.


(** ** Facts about the bridge *)

Section BridgeFacts.

Variable cst : Type.
Variable compressor_new : Z -> cst + error.
Variable compressor_write : cst -> list Byte.byte -> cst * list (list Byte.byte).
Variable compressor_close : cst -> list (list Byte.byte).

Local Abbreviation gz := (gzwriter cst).
Local Abbreviation gwWrite := (gw_Write cst compressor_write).
Local Abbreviation gwClose := (gw_Close cst compressor_close).
Local Abbreviation ioCopy := (io_Copy cst compressor_write).

Lemma log_eq (ev : event) (w : world) :
  log ev w = (tt, mkWorld (budget w) (r_close_result w) (gr_close_result w)
                     (pipe_data w) (pipe_werr w) (pipe_rerr w) (trace w ++ [ev])).
Proof. reflexivity. Qed.

Lemma gw_Write_trace (z : gz) (p : list Byte.byte) (w : world) :
  trace (snd (gwWrite z p w)) = trace w.
Proof.
  unfold gw_Write. destruct (gz_err cst z); [reflexivity|].
  destruct (compressor_write (gz_st cst z) p) as [st' outs].
  unfold bind. rewrite <- (pw_Writes_trace outs w).
  destruct (pw_Writes outs w) as [e w1]. reflexivity.
Qed.

(** The writer's sticky error can only come from the pipe. *)
Definition gz_ok (z : gz) : Prop :=
  gz_err cst z = None \/ gz_err cst z = Some ErrClosedPipe.

Lemma gw_Write_writable (z : gz) (p : list Byte.byte) (w : world) :
  pipe_writable w -> gz_ok z ->
  pipe_writable (snd (gwWrite z p w))
  /\ gz_ok (fst (fst (gwWrite z p w)))
  /\ (forall e, snd (fst (gwWrite z p w)) = Some e -> e = ErrClosedPipe).
Proof.
  intros Hw Hz. unfold gw_Write.
  destruct (gz_err cst z) as [e0|] eqn:Hze.
  - simpl. split; [exact Hw|]. split; [exact Hz|]. intros e He.
    injection He as <-. destruct Hz as [Hz|Hz]; congruence.
  - destruct (compressor_write (gz_st cst z) p) as [st' outs].
    unfold bind, ret.
    pose proof (pw_Writes_writable outs w Hw) as [Hw' He'].
    destruct (pw_Writes outs w) as [e w1]; simpl in *.
    split; [exact Hw'|]. split.
    + unfold gz_ok; simpl. destruct e as [e|]; [right; f_equal; now apply He'|now left].
    + exact He'.
Qed.

(** What [io.Copy] leaves behind, started in world [w]. *)
Definition copy_post (w : world) (res : gz * option error * world) : Prop :=
  pipe_writable (snd res)
  /\ gz_ok (fst (fst res))
  /\ (exists k, trace (snd res) = trace w ++ repeat ReadSrc (S k))
  /\ (forall e, snd (fst res) = Some e -> e <> EOF).

Lemma ioCopy_spec (z : gz) (r : list read_result) (w : world) :
  pipe_writable w -> gz_ok z -> copy_post w (ioCopy z r w).
Proof.
  revert z w; induction r as [|[bs er] r IH]; intros z w Hw Hz.
  - split; [exact Hw|]; split; [exact Hz|]; split; [exists 0; reflexivity|].
    discriminate.
  - cbn [io_Copy]. unfold bind at 1. rewrite log_eq.
    set (w1 := mkWorld _ _ _ _ _ _ _).
    assert (Hw1 : pipe_writable w1) by exact Hw.
    assert (Ht1 : trace w1 = trace w ++ [ReadSrc]) by reflexivity.
    clearbody w1. cbv beta iota.
    assert (Hstep : forall z' w2 ew,
               pipe_writable w2 -> gz_ok z' -> trace w2 = trace w1 ->
               (forall e, ew = Some e -> e <> EOF) ->
               copy_post w ((match ew with
                             | Some e => ret (z', Some e)
                             | None =>
                                 match er with
                                 | Some e => ret (z', if is_eof e then None else Some e)
                                 | None => ioCopy z' r
                                 end
                             end) w2)).
    { intros z' w2 ew Hw2 Hz' Ht2 Hew.
      destruct ew as [e|].
      - split; [exact Hw2|]; split; [exact Hz'|]; split; [|exact Hew].
        exists 0. simpl. rewrite Ht2, Ht1. reflexivity.
      - destruct er as [e|].
        + split; [exact Hw2|]; split; [exact Hz'|]; split.
          * exists 0. simpl. rewrite Ht2, Ht1. reflexivity.
          * simpl. intros e' He'. destruct (is_eof e) eqn:Ee; [discriminate|].
            injection He' as <-. intros ->. discriminate.
        + destruct (IH z' w2 Hw2 Hz') as (Hw3 & Hz3 & [k Hk] & He3).
          split; [exact Hw3|]; split; [exact Hz3|]; split; [|exact He3].
          exists (S k). rewrite Hk, Ht2, Ht1, <- app_assoc. reflexivity. }
    destruct bs as [|b bs].
    + apply (Hstep z w1 None Hw1 Hz eq_refl). discriminate.
    + unfold bind.
      pose proof (gw_Write_writable z (b :: bs) w1 Hw1 Hz) as (Hw2 & Hz2 & He2).
      pose proof (gw_Write_trace z (b :: bs) w1) as Ht2.
      destruct (gwWrite z (b :: bs) w1) as [[z' ew] w2]; simpl in *.
      apply (Hstep z' w2 ew Hw2 Hz2 Ht2).
      intros e He. rewrite (He2 e He). discriminate.
Qed.

Local Abbreviation bridgeL :=
  (GzipReadCloserLevel cst compressor_new compressor_write compressor_close).

Lemma bind_eq {A B} (m : M A) (k : A -> M B) (w : world) :
  bind m k w = k (fst (m w)) (snd (m w)).
Proof. unfold bind. destruct (m w); reflexivity. Qed.

Lemma gwClose_trace (z : gz) (w : world) :
  trace (snd (gwClose z w)) = trace w ++ [CloseGw].
Proof.
  unfold gw_Close. rewrite bind_eq, log_eq. simpl.
  destruct (gz_err cst z); [reflexivity|].
  destruct (gz_closed cst z); [reflexivity|].
  rewrite pw_Writes_trace. reflexivity.
Qed.

Lemma gwClose_done (z : gz) (w : world) :
  pipe_done w = true -> snd (gwClose z w) = snd (log CloseGw w).
Proof.
  intro Hd. unfold gw_Close. rewrite bind_eq, log_eq. simpl.
  destruct (gz_err cst z); [reflexivity|].
  destruct (gz_closed cst z); [reflexivity|].
  apply pw_Writes_done. exact Hd.
Qed.

(** The release steps after [io.Copy] returned [e], in the order they run. *)
Definition after_copy (e : option error) : list event :=
  match e with
  | None => [CloseGw; CloseR; ClosePw]
  | Some err => [ClosePwWithError err; CloseGw; CloseR]
  end.

(** Once [gzip.NewWriterLevel] has succeeded, the producer's steps are the
    reads of [io.Copy], its result, then the releases of [after_copy]; when
    the copy failed with [err], the pipe is closed with [err], which is not
    [io.EOF]. *)
Lemma bridge_constructed (r : list read_result) (level : Z) (st : cst) (w : world) :
  compressor_new level = inl st ->
  exists k e,
    trace (exec (bridgeL r level) w)
      = trace w ++ repeat ReadSrc (S k) ++ CopyDone e :: after_copy e
    /\ (forall err, e = Some err ->
          err <> EOF
          /\ pipe_werr (exec (bridgeL r level) w) = Some err).
Proof.
  intro Hnew. unfold GzipReadCloserLevel, producer, exec.
  rewrite !bind_eq. rewrite Hnew.
  set (w0 := snd (Pipe w)).
  assert (Hw0 : pipe_writable w0) by (split; [reflexivity|left; reflexivity]).
  assert (Ht0 : trace w0 = trace w) by reflexivity.
  clearbody w0.
  rewrite bind_eq.
  destruct (ioCopy_spec (mkGz cst st None false) r w0 Hw0 (or_introl eq_refl))
    as (Hw1 & Hz1 & [k Hk] & He1).
  destruct (ioCopy (mkGz cst st None false) r w0) as [[gw e] w1]; simpl in *.
  rewrite bind_eq, log_eq. simpl.
  exists k, e.
  destruct e as [err|].
  - unfold go_return, pw_CloseWithError. simpl.
    rewrite !bind_eq, log_eq. simpl.
    rewrite gwClose_done by (unfold pipe_done; simpl; destruct Hw1 as [-> _]; reflexivity).
    rewrite log_eq. simpl.
    split.
    + rewrite Hk, Ht0, <- !app_assoc. reflexivity.
    + intros err' Herr. injection Herr as <-.
      split; [exact (He1 err eq_refl)|]. destruct Hw1 as [-> _]. reflexivity.
  - split; [|discriminate].
    unfold go_return. simpl. rewrite ?bind_eq. simpl. rewrite ?bind_eq.
    set (wl := mkWorld _ _ _ _ _ _ _).
    rewrite gwClose_trace. subst wl. simpl.
    rewrite Hk, Ht0, <- !app_assoc. reflexivity.
Qed.

(** When [gzip.NewWriterLevel] fails, the producer only closes the pipe
    with that error. *)
Lemma bridge_invalid_level (r : list read_result) (level : Z) (err : error) (w : world) :
  compressor_new level = inr err ->
  trace (exec (bridgeL r level) w) = trace w ++ [ClosePwWithError err]
  /\ consumer_view (exec (bridgeL r level) w) = ([], err).
Proof.
  intro Hnew. unfold GzipReadCloserLevel, producer, exec.
  rewrite !bind_eq, Hnew. split; reflexivity.
Qed.

Lemma split_at_copy_done (k : nat) (e e' : option error) (tail pre post : list event) :
  (forall x, ~ In (CopyDone x) tail) ->
  repeat ReadSrc k ++ CopyDone e :: tail = pre ++ CopyDone e' :: post ->
  e' = e /\ post = tail.
Proof.
  intro Htail. revert pre; induction k as [|k IH]; intros [|x pre] H; simpl in H.
  - injection H as -> ->. split; reflexivity.
  - injection H as <- Ht. exfalso. apply (Htail e').
    rewrite Ht. apply in_or_app. right. left. reflexivity.
  - discriminate.
  - injection H as _ H. exact (IH pre H).
Qed.

Lemma after_copy_no_copy_done (e : option error) (x : option error) :
  ~ In (CopyDone x) (after_copy e).
Proof. destruct e; simpl; intuition discriminate. Qed.

(** The steps that follow the result of [io.Copy] in a run of the bridge. *)
Lemma bridge_after_copy (r : list read_result) (level : Z) (w : world)
    (pre post : list event) (e : option error) :
  trace (exec (bridgeL r level) w) = trace w ++ pre ++ CopyDone e :: post ->
  post = after_copy e
  /\ (forall err, e = Some err ->
        err <> EOF /\ pipe_werr (exec (bridgeL r level) w) = Some err).
Proof.
  intro H. destruct (compressor_new level) as [st|err0] eqn:Hnew.
  - destruct (bridge_constructed r level st w Hnew) as (k & e0 & Ht & He0).
    rewrite Ht in H. apply app_inv_head in H.
    destruct (split_at_copy_done (S k) e0 e (after_copy e0) pre post
                (after_copy_no_copy_done e0) H) as [-> ->].
    split; [reflexivity|exact He0].
  - destruct (bridge_invalid_level r level err0 w Hnew) as [Ht _].
    rewrite Ht in H. apply app_inv_head in H.
    destruct pre as [|x [|y pre]]; simpl in H; discriminate.
Qed.

(** C3: when [io.Copy] returns without error, the producer closes the gzip
    writer (writing its trailer into the pipe), then the input source, and
    only then the pipe's write end. *)
Theorem bridge_success_closes_gw_before_pw (r : list read_result) (level : Z) (w : world)
    (pre post : list event)
    (H : trace (exec (bridgeL r level) w) = trace w ++ pre ++ CopyDone None :: post) :
  post = [CloseGw; CloseR; ClosePw].
Proof. exact (proj1 (bridge_after_copy r level w pre post None H)). Qed.

(** C4 (amended): when [io.Copy] fails with [err], the producer first closes
    the pipe with [err], then closes the gzip writer, then the input source;
    afterwards every read on the returned reader fails, with [err] or, when
    the consumer has closed its end, with [io.ErrClosedPipe], never with
    [io.EOF]. *)
Theorem bridge_copy_error (r : list read_result) (level : Z) (w : world)
    (pre post : list event) (err : error)
    (H : trace (exec (bridgeL r level) w) = trace w ++ pre ++ CopyDone (Some err) :: post) :
  post = [ClosePwWithError err; CloseGw; CloseR]
  /\ readCloseError (exec (bridgeL r level) w)
     = match pipe_rerr (exec (bridgeL r level) w) with
       | None => err
       | Some _ => ErrClosedPipe
       end
  /\ readCloseError (exec (bridgeL r level) w) <> EOF.
Proof.
  destruct (bridge_after_copy r level w pre post (Some err) H) as [Hp He].
  destruct (He err eq_refl) as [Hne Hw].
  split; [exact Hp|]. unfold readCloseError. rewrite Hw.
  destruct (pipe_rerr _); split; try reflexivity; try exact Hne; discriminate.
Qed.

(** C5: when [gzip.NewWriterLevel] fails with [err], the producer closes the
    pipe with [err] and does nothing else (no read of the source); the
    consumer's read returns [err]. *)
Theorem bridge_construction_error (r : list read_result) (level : Z) (err : error) (w : world)
    (Hnew : compressor_new level = inr err) :
  trace (exec (bridgeL r level) w) = trace w ++ [ClosePwWithError err]
  /\ consumer_view (exec (bridgeL r level) w) = ([], err).
Proof. exact (bridge_invalid_level r level err w Hnew). Qed.

(** C2: when [gzip.NewWriterLevel] fails, the input source is never
    closed: no [r.Close()] among the steps of the run. *)
Theorem bridge_construction_error_leaks_source (r : list read_result) (level : Z)
    (err : error) (w : world) (Hnew : compressor_new level = inr err) :
  exists steps, trace (exec (bridgeL r level) w) = trace w ++ steps /\ ~ In CloseR steps.
Proof.
  exists [ClosePwWithError err]. split.
  - exact (proj1 (bridge_invalid_level r level err w Hnew)).
  - simpl. intuition discriminate.
Qed.

(** Whether [io.Copy] passes a read's bytes on ([if nr > 0]). *)
Definition nonempty (c : list Byte.byte) : bool :=
  match c with [] => false | _ => true end.

(** A reader that delivers the chunks [cs], one per [Read], then [io.EOF]. *)
Definition chunk_reader (cs : list (list Byte.byte)) : list read_result :=
  map (fun c => (c, None)) cs.

Local Abbreviation codecOut := (codec_output cst compressor_write compressor_close).

Local Abbreviation codecRun := (codec_run cst compressor_write).

Lemma codec_run_app (st : cst) (ws1 ws2 : list (list Byte.byte)) :
  codecRun st (ws1 ++ ws2)
  = let '(st1, o1) := codecRun st ws1 in
    let '(st2, o2) := codecRun st1 ws2 in (st2, o1 ++ o2).
Proof.
  revert st; induction ws1 as [|p ws1 IH]; intro st; simpl.
  - destruct (codecRun st ws2); reflexivity.
  - destruct (compressor_write st p) as [st' outs]. rewrite IH.
    destruct (codecRun st' ws1) as [s1 o1]. destruct (codecRun s1 ws2) as [s2 o2].
    rewrite app_assoc. reflexivity.
Qed.

(** What the codec writes for a sequence of writes and a close: the bytes
    of the writes, then those of the close. *)
Lemma codec_output_run (st : cst) (ws : list (list Byte.byte)) :
  codecOut st ws = snd (codecRun st ws) ++ concat (compressor_close (fst (codecRun st ws))).
Proof.
  revert st; induction ws as [|p ws IH]; intro st; simpl; [reflexivity|].
  destruct (compressor_write st p) as [st' outs]. rewrite IH.
  destruct (codecRun st' ws) as [s o]. simpl. rewrite app_assoc. reflexivity.
Qed.

(** With a consumer that reads everything, [io.Copy] passes the chunks of a
    reader that does not fail to the codec, and every byte the codec writes
    to the consumer, before it gets to what the reader returns next. *)
Lemma ioCopy_prefix (z : gz) (cs : list (list Byte.byte)) (tail : list read_result) (w : world) :
  budget w = None -> pipe_werr w = None -> pipe_rerr w = None -> gz_err cst z = None ->
  exists z' w1,
    ioCopy z (chunk_reader cs ++ tail) w = ioCopy z' tail w1
    /\ gz_err cst z' = None /\ gz_closed cst z' = gz_closed cst z
    /\ budget w1 = None /\ pipe_werr w1 = None /\ pipe_rerr w1 = None
    /\ gz_st cst z' = fst (codecRun (gz_st cst z) (filter nonempty cs))
    /\ pipe_data w1 = pipe_data w ++ snd (codecRun (gz_st cst z) (filter nonempty cs)).
Proof.
  revert z w; induction cs as [|c cs IH]; intros z w Hb Hw Hr Hz.
  - exists z, w. do 7 (split; [first [assumption|reflexivity]|]).
    simpl. rewrite app_nil_r. reflexivity.
  - cbn [chunk_reader map app io_Copy]. rewrite bind_eq, log_eq. simpl.
    set (w1 := mkWorld _ _ _ _ _ _ _).
    assert (Hb1 : budget w1 = None) by exact Hb.
    assert (Hw1 : pipe_werr w1 = None) by exact Hw.
    assert (Hr1 : pipe_rerr w1 = None) by exact Hr.
    assert (Hd1 : pipe_data w1 = pipe_data w) by reflexivity.
    clearbody w1.
    destruct c as [|b c].
    + destruct (IH z w1 Hb1 Hw1 Hr1 Hz) as (z' & w2 & Heq & H1 & H2 & H3 & H4 & H5 & H6 & H7).
      exists z', w2. do 7 (split; [first [assumption|reflexivity]|]).
      rewrite H7, Hd1. reflexivity.
    + rewrite bind_eq. unfold gw_Write. rewrite Hz.
      destruct (compressor_write (gz_st cst z) (b :: c)) as [st' outs] eqn:Hcw.
      rewrite bind_eq, pw_Writes_deliver by assumption. simpl.
      destruct (IH (mkGz cst st' None (gz_closed cst z))
                   (mkWorld None (r_close_result w1) (gr_close_result w1)
                      (pipe_data w1 ++ concat outs) None None (trace w1))
                   eq_refl eq_refl eq_refl eq_refl)
        as (z' & w2 & Heq & H1 & H2 & H3 & H4 & H5 & H6 & H7).
      exists z', w2. split; [exact Heq|]. do 5 (split; [first [assumption|reflexivity]|]).
      simpl in H6, H7. rewrite Hcw.
      destruct (codecRun st' (filter nonempty cs)) as [s o].
      split; [exact H6|]. rewrite H7, Hd1, <- app_assoc. reflexivity.
Qed.

Variable gunzip : list Byte.byte * error -> (list Byte.byte * error) + error.

(** C6: for a valid level (one [gzip.NewWriterLevel] accepts) and a codec
    that decodes what it encodes, [GunzipReadCloser] over the output of the
    bridge, read to the end, yields exactly the bytes of the input source,
    however the source splits them into reads. *)
Theorem gzip_gunzip_roundtrip (cs : list (list Byte.byte)) (level : Z) (st : cst) (w : world)
    (Hnew : compressor_new level = inl st)
    (Hcodec : gunzip (codecOut st (filter nonempty cs), EOF) = inl (concat cs, EOF))
    (Hreader : budget w = None) :
  exists rc,
    GunzipReadCloser gunzip (consumer_view (exec (bridgeL (chunk_reader cs) level) w))
      = (Some rc, None)
    /\ rc_Reader rc = (concat cs, EOF).
Proof.
  unfold GzipReadCloserLevel, producer, exec.
  rewrite !bind_eq, Hnew.
  set (w0 := snd (Pipe w)).
  destruct (ioCopy_prefix (mkGz cst st None false) cs [] w0 Hreader eq_refl eq_refl eq_refl)
    as (z' & w1 & Heq & Hz' & Hcl & Hb1 & Hw1 & Hr1 & Hs1 & Hd1).
  rewrite app_nil_r in Heq. rewrite bind_eq, Heq.
  cbn [io_Copy]. rewrite bind_eq, log_eq. simpl.
  rewrite bind_eq, log_eq. simpl.
  unfold go_return. simpl. rewrite ?bind_eq. simpl.
  unfold gw_Close. rewrite ?bind_eq, log_eq. simpl.
  simpl in Hcl, Hs1, Hd1. rewrite Hz', Hcl. rewrite pw_Writes_deliver by assumption. simpl.
  unfold consumer_view, readCloseError. simpl.
  rewrite Hd1, Hs1. subst w0. simpl.
  rewrite codec_output_run in Hcodec.
  unfold GunzipReadCloser. rewrite Hcodec.
  eexists. split; reflexivity.
Qed.

(** C1: when [gr.Close()] fails with [err], the wrapper's [Close] returns
    [err] without calling [r.Close()]: the steps it takes are [gr.Close()]
    alone. *)
Theorem gunzip_close_skips_source (r : list Byte.byte * error) (rc : readAndCloser)
    (w : world) (err : error)
    (Hrc : GunzipReadCloser gunzip r = (Some rc, None))
    (Hgr : gr_close_result w = Some err) :
  trace (snd (CloseFunc rc w)) = trace w ++ [CloseGr]
  /\ fst (CloseFunc rc w) = Some err.
Proof.
  revert Hrc. unfold GunzipReadCloser. destruct (gunzip r) as [gr|e]; [|discriminate].
  intro H. injection H as <-. simpl.
  unfold gr_Close. rewrite !bind_eq, log_eq. simpl. rewrite Hgr. split; reflexivity.
Qed.

(** C10: [GzipReadCloser] is [GzipReadCloserLevel] at [gzip.BestSpeed]. *)
Theorem GzipReadCloser_is_BestSpeed (r : list read_result) :
  GzipReadCloser cst compressor_new compressor_write compressor_close r = bridgeL r BestSpeed.
Proof. reflexivity. Qed.

End BridgeFacts.

(** ** Further facts about the bridge *)

Section BridgeMore.

Variable cst : Type.
Variable compressor_new : Z -> cst + error.
Variable compressor_write : cst -> list Byte.byte -> cst * list (list Byte.byte).
Variable compressor_close : cst -> list (list Byte.byte).

Local Abbreviation gz := (gzwriter cst).
Local Abbreviation ioCopy := (io_Copy cst compressor_write).
Local Abbreviation codecOut := (codec_output cst compressor_write compressor_close).
Local Abbreviation bridgeL :=
  (GzipReadCloserLevel cst compressor_new compressor_write compressor_close).

Lemma is_eof_false (e : error) : e <> EOF -> is_eof e = false.
Proof. destruct e; simpl; congruence. Qed.

Local Abbreviation codecRun := (codec_run cst compressor_write).

(** With a consumer that reads everything, [io.Copy] over a reader whose
    last read returns [c] with the error [e]: every non-empty read,
    including the last, goes through the codec to the consumer, and the
    copy returns [e] unless it is [io.EOF]. *)
Lemma ioCopy_final (z : gz) (cs : list (list Byte.byte)) (c : list Byte.byte) (e : error)
    (w : world) :
  budget w = None -> pipe_werr w = None -> pipe_rerr w = None -> gz_err cst z = None ->
  exists z' w',
    ioCopy z (chunk_reader cs ++ [(c, Some e)]) w
      = ((z', if is_eof e then None else Some e), w')
    /\ gz_err cst z' = None /\ gz_closed cst z' = gz_closed cst z
    /\ budget w' = None /\ pipe_werr w' = None /\ pipe_rerr w' = None
    /\ gz_st cst z' = fst (codecRun (gz_st cst z) (filter nonempty (cs ++ [c])))
    /\ pipe_data w' = pipe_data w ++ snd (codecRun (gz_st cst z) (filter nonempty (cs ++ [c]))).
Proof.
  intros Hb Hw Hr Hz.
  destruct (ioCopy_prefix cst compressor_write z cs [(c, Some e)] w Hb Hw Hr Hz)
    as (z1 & w1 & Heq & Hz1 & Hc1 & Hb1 & Hw1 & Hr1 & Hs1 & Hd1).
  rewrite Heq, filter_app, codec_run_app.
  destruct (codecRun (gz_st cst z) (filter nonempty cs)) as [s1 o1].
  simpl in Hs1, Hd1.
  cbn [io_Copy]. rewrite bind_eq, log_eq. simpl.
  set (w2 := mkWorld _ _ _ _ _ _ _).
  assert (Hb2 : budget w2 = None) by exact Hb1.
  assert (Hw2 : pipe_werr w2 = None) by exact Hw1.
  assert (Hr2 : pipe_rerr w2 = None) by exact Hr1.
  assert (Hd2 : pipe_data w2 = pipe_data w1) by reflexivity.
  clearbody w2.
  destruct c as [|b c].
  - rewrite bind_eq. simpl.
    exists z1, w2. split; [reflexivity|]. do 5 (split; [assumption|]).
    split; [exact Hs1|]. rewrite Hd2, Hd1, app_nil_r. reflexivity.
  - rewrite bind_eq. unfold gw_Write. rewrite Hz1.
    destruct (compressor_write (gz_st cst z1) (b :: c)) as [st2 outs] eqn:Hcw.
    rewrite bind_eq, pw_Writes_deliver by assumption. simpl.
    rewrite Hs1 in Hcw. rewrite Hcw. simpl.
    eexists _, _. split; [reflexivity|]. simpl.
    do 6 (split; [first [assumption|reflexivity]|]).
    rewrite Hd2, Hd1, app_nil_r, <- app_assoc. reflexivity.
Qed.

(** The bridge's output, for a consumer that reads everything and a reader
    that ends with [io.EOF]: exactly the bytes [gzip.Writer] writes for the
    non-empty reads, trailer included, then [io.EOF]. *)
Theorem bridge_output_is_codec_output (cs : list (list Byte.byte)) (level : Z) (st : cst)
    (w : world) (Hnew : compressor_new level = inl st) (Hreader : budget w = None) :
  consumer_view (exec (bridgeL (chunk_reader cs) level) w)
  = (codecOut st (filter nonempty cs), EOF).
Proof.
  unfold GzipReadCloserLevel, producer, exec.
  rewrite !bind_eq, Hnew.
  set (w0 := snd (Pipe w)).
  destruct (ioCopy_prefix cst compressor_write (mkGz cst st None false) cs []
              w0 Hreader eq_refl eq_refl eq_refl)
    as (z' & w1 & Heq & Hz' & Hcl & Hb1 & Hw1 & Hr1 & Hs1 & Hd1).
  rewrite app_nil_r in Heq. rewrite bind_eq, Heq.
  cbn [io_Copy]. rewrite bind_eq, log_eq. simpl.
  rewrite bind_eq, log_eq. simpl.
  unfold go_return. simpl. rewrite ?bind_eq. simpl.
  unfold gw_Close. rewrite ?bind_eq, log_eq. simpl.
  simpl in Hcl, Hs1, Hd1. rewrite Hz', Hcl. rewrite pw_Writes_deliver by assumption. simpl.
  unfold consumer_view, readCloseError. simpl.
  rewrite Hd1, Hs1. subst w0. simpl.
  rewrite codec_output_run. reflexivity.
Qed.

(** A read error [err] (not [io.EOF]) of the source reaches the consumer
    that reads everything: its last read fails with [err]. What it has
    received is exactly what the gzip writer wrote on the pipe during its
    [Write] calls for the non-empty reads, the failing read's bytes
    included; nothing of [gw.Close()] (flush and trailer) reaches it. *)
Theorem bridge_read_error_reaches_consumer (cs : list (list Byte.byte)) (c : list Byte.byte)
    (err : error) (level : Z) (st : cst) (w : world)
    (Hnew : compressor_new level = inl st) (Hreader : budget w = None) (Herr : err <> EOF) :
  readCloseError (exec (bridgeL (chunk_reader cs ++ [(c, Some err)]) level) w) = err
  /\ pipe_data (exec (bridgeL (chunk_reader cs ++ [(c, Some err)]) level) w)
     = snd (codecRun st (filter nonempty (cs ++ [c]))).
Proof.
  unfold GzipReadCloserLevel, producer, exec.
  rewrite !bind_eq, Hnew.
  set (w0 := snd (Pipe w)).
  destruct (ioCopy_final (mkGz cst st None false) cs c err w0 Hreader eq_refl eq_refl eq_refl)
    as (z' & w1 & Heq & Hz' & Hcl & Hb1 & Hw1 & Hr1 & Hs1 & Hd1).
  rewrite (is_eof_false err Herr) in Heq.
  rewrite bind_eq, Heq. simpl.
  unfold go_return, pw_CloseWithError, closeWrite, r_Close, bind, ret, log, get, put, set_pipe.
  simpl. unfold bind, ret. simpl.
  rewrite Hw1. simpl.
  set (wc := mkWorld _ _ _ _ _ _ _).
  pose proof (gwClose_done cst compressor_close z' wc eq_refl) as Hg.
  destruct (gw_Close cst compressor_close z' wc) as [e4 w4]. simpl in Hg. subst w4.
  simpl. unfold readCloseError. simpl. rewrite Hr1. split; [reflexivity|].
  rewrite Hd1. subst w0. reflexivity.
Qed.

(** Whether a step closes the pipe's write end. *)
Definition closes_pw (ev : event) : bool :=
  match ev with ClosePw | ClosePwWithError _ => true | _ => false end.

Lemma filter_repeat_ReadSrc (p : event -> bool) (n : nat) :
  p ReadSrc = false -> filter p (repeat ReadSrc n) = [].
Proof. intro H. induction n as [|n IH]; simpl; [reflexivity|]. rewrite H. exact IH. Qed.


(** Once [gzip.NewWriterLevel] has succeeded, whatever the source's reads
    return and however the consumer behaves, the producer closes the gzip
    writer, the source and the pipe's write end exactly once each. *)
Theorem bridge_releases_once (r : list read_result) (level : Z) (st : cst) (w : world)
    (Hnew : compressor_new level = inl st) :
  exists steps,
    trace (exec (bridgeL r level) w) = trace w ++ steps
    /\ length (filter (event_eqb CloseGw) steps) = 1
    /\ length (filter (event_eqb CloseR) steps) = 1
    /\ length (filter closes_pw steps) = 1.
Proof.
  destruct (bridge_constructed cst compressor_new compressor_write compressor_close
              r level st w Hnew) as (k & e & Ht & _).
  exists (repeat ReadSrc (S k) ++ CopyDone e :: after_copy e).
  split; [exact Ht|].
  rewrite !filter_app, !filter_repeat_ReadSrc by reflexivity.
  destruct e; simpl; (split; [|split]); reflexivity.
Qed.

(** A consumer that closes its read end before reading anything, and a
    codec whose first [Write] writes on the pipe (gzip writes its header
    then): the first non-empty read makes [gw.Write] fail with
    [io.ErrClosedPipe], [io.Copy] stops there (the source is read once),
    the pipe is closed with that error, then the gzip writer (which writes
    nothing more) and the source are closed. The consumer receives nothing
    and its reads fail with [io.ErrClosedPipe]. *)
Theorem bridge_abandoned_before_first_write (b : Byte.byte) (c : list Byte.byte)
    (e : option error) (r : list read_result) (level : Z) (st st' : cst)
    (out : list Byte.byte) (outs : list (list Byte.byte)) (w : world)
    (Hnew : compressor_new level = inl st)
    (Hwrite : compressor_write st (b :: c) = (st', out :: outs))
    (Hb : budget w = Some 0) :
  trace (exec (bridgeL ((b :: c, e) :: r) level) w)
    = trace w ++ [ReadSrc; CopyDone (Some ErrClosedPipe);
                  ClosePwWithError ErrClosedPipe; CloseGw; CloseR]
  /\ consumer_view (exec (bridgeL ((b :: c, e) :: r) level) w) = ([], ErrClosedPipe).
Proof.
  unfold GzipReadCloserLevel, producer, exec.
  rewrite !bind_eq, Hnew. cbn [io_Copy].
  unfold Pipe, gw_Write, gw_Close, go_return, pw_CloseWithError, r_Close, pw_Write,
    closeRead, closeWrite, bind, ret, get, put, log, set_pipe, set_budget.
  simpl. rewrite Hwrite. cbn [pw_Writes].
  unfold pw_Write, closeRead, bind, ret, get, put, set_pipe.
  simpl. rewrite Hb. simpl. unfold writeCloseError. simpl.
  rewrite <- !app_assoc. split; reflexivity.
Qed.

(** Unless [gzip.NewWriterLevel] fails with [io.EOF] itself, the consumer
    sees a clean end of stream only when [io.Copy] succeeded: the run then
    ends with the copy's success and the closes of the gzip writer, the
    source and the pipe. *)
Theorem bridge_eof_only_after_success (r : list read_result) (level : Z) (w : world)
    (Hlevel : compressor_new level <> inr EOF)
    (Heof : readCloseError (exec (bridgeL r level) w) = EOF) :
  exists pre, trace (exec (bridgeL r level) w)
              = trace w ++ pre ++ [CopyDone None; CloseGw; CloseR; ClosePw].
Proof.
  destruct (compressor_new level) as [st|err] eqn:Hnew.
  - destruct (bridge_constructed cst compressor_new compressor_write compressor_close
                r level st w Hnew) as (k & e & Ht & He).
    destruct e as [err|].
    + exfalso. destruct (He err eq_refl) as [Hne Hw].
      revert Heof. unfold readCloseError. rewrite Hw.
      destruct (pipe_rerr _); [discriminate|exact Hne].
    + exists (repeat ReadSrc (S k)). rewrite Ht. reflexivity.
  - destruct (bridge_invalid_level cst compressor_new compressor_write compressor_close
                r level err w Hnew) as [_ Hv].
    unfold consumer_view in Hv. injection Hv as _ Hv.
    congruence.
Qed.

(** Bytes the source returns together with [io.EOF] are not lost: they are
    compressed and delivered, followed by the trailer and [io.EOF]. *)
Theorem bridge_final_read_with_eof (cs : list (list Byte.byte)) (c : list Byte.byte)
    (level : Z) (st : cst) (w : world)
    (Hnew : compressor_new level = inl st) (Hreader : budget w = None) :
  consumer_view (exec (bridgeL (chunk_reader cs ++ [(c, Some EOF)]) level) w)
  = (codecOut st (filter nonempty (cs ++ [c])), EOF).
Proof.
  unfold GzipReadCloserLevel, producer, exec.
  rewrite !bind_eq, Hnew.
  set (w0 := snd (Pipe w)).
  destruct (ioCopy_final (mkGz cst st None false) cs c EOF w0 Hreader eq_refl eq_refl eq_refl)
    as (z' & w1 & Heq & Hz' & Hcl & Hb1 & Hw1 & Hr1 & Hs1 & Hd1).
  simpl in Heq. rewrite bind_eq, Heq. simpl.
  rewrite bind_eq, log_eq. simpl.
  unfold go_return. simpl. rewrite ?bind_eq. simpl.
  unfold gw_Close. rewrite ?bind_eq, log_eq. simpl.
  simpl in Hcl, Hs1, Hd1. rewrite Hz', Hcl. rewrite pw_Writes_deliver by assumption. simpl.
  unfold consumer_view, readCloseError. simpl.
  rewrite Hd1, Hs1. subst w0. simpl.
  rewrite codec_output_run. reflexivity.
Qed.

End BridgeMore.

(** ** Runs at concrete inputs *)

Definition stored_reader : list read_result := [([Byte.x41], None); ([Byte.x42], None)].

Lemma IsGzipped_empty_witness :
  Read [] 2 = ([], Some EOF) /\ IsGzipped [] [Byte.x1f; Byte.x8b] = (false, None).
Proof. split; [reflexivity|]. apply (IsGzipped_empty [] [Byte.x1f; Byte.x8b]). reflexivity. Defined.

(** A gzip stream, handed out one byte per [Read]. *)
Definition one_byte_reader : list read_result :=
  [([Byte.x1f], None); ([Byte.x8b], None); ([Byte.x08], None)].

Lemma IsGzipped_short_first_read_witness :
  firstn 2 (contents one_byte_reader) = gzipMagicHeader
  /\ length (fst (Read one_byte_reader 2)) < 2
  /\ snd (Read one_byte_reader 2) = None
  /\ IsGzipped one_byte_reader [] = (false, None).
Proof.
  split; [reflexivity|]. split; [simpl; lia|]. split; [reflexivity|].
  apply (IsGzipped_short_first_read one_byte_reader); [simpl; lia|reflexivity].
Defined.

Lemma bridge_success_witness :
  trace (exec (bridge stored_reader 1) (world0 None None None))
    = trace (world0 None None None) ++ [ReadSrc; ReadSrc; ReadSrc] ++ CopyDone None :: [CloseGw; CloseR; ClosePw]
  /\ [CloseGw; CloseR; ClosePw] = [CloseGw; CloseR; ClosePw].
Proof.
  split; [vm_compute; reflexivity|].
  apply (bridge_success_closes_gw_before_pw bool stored_new stored_write stored_close
           stored_reader 1 (world0 None None None) [ReadSrc; ReadSrc; ReadSrc]).
  vm_compute. reflexivity.
Defined.

Definition failing_reader : list read_result := [([Byte.x41], None); ([Byte.x42], Some (Err 7))].

Lemma bridge_copy_error_witness :
  let w := exec (bridge failing_reader 1) (world0 None None None) in
  trace w = [] ++ [ReadSrc; ReadSrc] ++ CopyDone (Some (Err 7)) :: [ClosePwWithError (Err 7); CloseGw; CloseR]
  /\ [ClosePwWithError (Err 7); CloseGw; CloseR] = [ClosePwWithError (Err 7); CloseGw; CloseR]
  /\ readCloseError w = match pipe_rerr w with None => Err 7 | Some _ => ErrClosedPipe end
  /\ readCloseError w <> EOF.
Proof.
  split; [vm_compute; reflexivity|].
  apply (bridge_copy_error bool stored_new stored_write stored_close
           failing_reader 1 (world0 None None None) [ReadSrc; ReadSrc]
           [ClosePwWithError (Err 7); CloseGw; CloseR] (Err 7)).
  vm_compute. reflexivity.
Defined.

(** C4 (as the claim is written) fails: after a failed copy the pipe is
    closed with the error before the gzip writer and the source are
    closed ([return pw.CloseWithError(err)] is evaluated before the
    deferred calls run). *)
Lemma bridge_copy_error_terminates_first :
  let tr := trace (exec (bridge failing_reader 1) (world0 None None None)) in
  tr = [ReadSrc; ReadSrc; CopyDone (Some (Err 7)); ClosePwWithError (Err 7); CloseGw; CloseR]
  /\ before CloseGw (ClosePwWithError (Err 7)) tr = false
  /\ before CloseR (ClosePwWithError (Err 7)) tr = false.
Proof. vm_compute. repeat split. Qed.

Lemma bridge_construction_error_witness :
  stored_new 10 = inr (Err 1)
  /\ trace (exec (bridge stored_reader 10) (world0 None None None))
     = trace (world0 None None None) ++ [ClosePwWithError (Err 1)]
  /\ consumer_view (exec (bridge stored_reader 10) (world0 None None None)) = ([], Err 1).
Proof.
  split; [reflexivity|].
  apply (bridge_construction_error bool stored_new stored_write stored_close
           stored_reader 10 (Err 1) (world0 None None None)).
  reflexivity.
Defined.

Lemma bridge_construction_error_leaks_source_witness :
  stored_new 10 = inr (Err 1)
  /\ exists steps, trace (exec (bridge stored_reader 10) (world0 None None None))
                   = trace (world0 None None None) ++ steps /\ ~ In CloseR steps.
Proof.
  split; [reflexivity|].
  apply (bridge_construction_error_leaks_source bool stored_new stored_write stored_close
           stored_reader 10 (Err 1) (world0 None None None)).
  reflexivity.
Defined.

Lemma gzip_gunzip_roundtrip_witness :
  let cs := [[Byte.x41]; []; [Byte.x42; Byte.x43]] in
  stored_new 1 = inl false
  /\ stored_gunzip (codec_output bool stored_write stored_close false (filter nonempty cs), EOF)
     = inl (concat cs, EOF)
  /\ exists rc,
       GunzipReadCloser stored_gunzip
         (consumer_view (exec (bridge (chunk_reader cs) 1) (world0 None None None)))
       = (Some rc, None)
       /\ rc_Reader rc = (concat cs, EOF).
Proof.
  split; [reflexivity|]. split; [reflexivity|].
  apply (gzip_gunzip_roundtrip bool stored_new stored_write stored_close stored_gunzip
           [[Byte.x41]; []; [Byte.x42; Byte.x43]] 1 false (world0 None None None));
    reflexivity.
Defined.

Definition gzipped_stream : list Byte.byte * error := ([Byte.x1f; Byte.x8b; Byte.x41; Byte.x00], EOF).

Lemma gunzip_close_skips_source_witness :
  exists rc,
    GunzipReadCloser stored_gunzip gzipped_stream = (Some rc, None)
    /\ trace (snd (CloseFunc rc (world0 None None (Some (Err 5)))))
       = trace (world0 None None (Some (Err 5))) ++ [CloseGr]
    /\ fst (CloseFunc rc (world0 None None (Some (Err 5)))) = Some (Err 5).
Proof.
  eexists. split; [reflexivity|].
  apply (gunzip_close_skips_source stored_gunzip gzipped_stream _
           (world0 None None (Some (Err 5))) (Err 5)); reflexivity.
Defined.

Lemma bridge_output_is_codec_output_witness :
  let cs := [[Byte.x41]; []; [Byte.x42]] in
  stored_new 1 = inl false
  /\ budget (world0 None None None) = None
  /\ consumer_view (exec (bridge (chunk_reader cs) 1) (world0 None None None))
     = (codec_output bool stored_write stored_close false (filter nonempty cs), EOF).
Proof.
  split; [reflexivity|]. split; [reflexivity|].
  apply (bridge_output_is_codec_output bool stored_new stored_write stored_close
           [[Byte.x41]; []; [Byte.x42]] 1 false (world0 None None None));
    reflexivity.
Defined.

Lemma bridge_read_error_reaches_consumer_witness :
  let w := exec (bridge (chunk_reader [[Byte.x41]] ++ [([Byte.x42], Some (Err 7))]) 1)
             (world0 None None None) in
  stored_new 1 = inl false
  /\ budget (world0 None None None) = None
  /\ Err 7 <> EOF
  /\ readCloseError w = Err 7
  /\ pipe_data w = snd (codec_run bool stored_write false
                          (filter nonempty ([[Byte.x41]] ++ [[Byte.x42]]))).
Proof.
  split; [reflexivity|]. split; [reflexivity|]. split; [discriminate|].
  apply (bridge_read_error_reaches_consumer bool stored_new stored_write stored_close
           [[Byte.x41]] [Byte.x42] (Err 7) 1 false (world0 None None None));
    [reflexivity|reflexivity|discriminate].
Defined.

Lemma bridge_releases_once_witness :
  stored_new 1 = inl false
  /\ exists steps,
       trace (exec (bridge failing_reader 1) (world0 None None None))
         = trace (world0 None None None) ++ steps
       /\ length (filter (event_eqb CloseGw) steps) = 1
       /\ length (filter (event_eqb CloseR) steps) = 1
       /\ length (filter closes_pw steps) = 1.
Proof.
  split; [reflexivity|].
  apply (bridge_releases_once bool stored_new stored_write stored_close
           failing_reader 1 false (world0 None None None)).
  reflexivity.
Defined.

Lemma bridge_abandoned_before_first_write_witness :
  let w' := exec (bridge [([Byte.x41], None); ([Byte.x42], None)] 1)
              (world0 (Some 0) None None) in
  stored_new 1 = inl false
  /\ stored_write false [Byte.x41] = (true, [gzipMagicHeader; [Byte.x41]])
  /\ budget (world0 (Some 0) None None) = Some 0
  /\ trace w' = trace (world0 (Some 0) None None)
                  ++ [ReadSrc; CopyDone (Some ErrClosedPipe);
                      ClosePwWithError ErrClosedPipe; CloseGw; CloseR]
  /\ consumer_view w' = ([], ErrClosedPipe).
Proof.
  split; [reflexivity|]. split; [reflexivity|]. split; [reflexivity|].
  apply (bridge_abandoned_before_first_write bool stored_new stored_write stored_close
           Byte.x41 [] None [([Byte.x42], None)] 1 false true gzipMagicHeader [[Byte.x41]]
           (world0 (Some 0) None None)); reflexivity.
Defined.

Lemma bridge_eof_only_after_success_witness :
  stored_new 1 <> inr EOF
  /\ readCloseError (exec (bridge stored_reader 1) (world0 None None None)) = EOF
  /\ exists pre, trace (exec (bridge stored_reader 1) (world0 None None None))
                 = trace (world0 None None None) ++ pre
                     ++ [CopyDone None; CloseGw; CloseR; ClosePw].
Proof.
  split; [discriminate|]. split; [vm_compute; reflexivity|].
  apply (bridge_eof_only_after_success bool stored_new stored_write stored_close
           stored_reader 1 (world0 None None None)).
  - discriminate.
  - vm_compute. reflexivity.
Defined.

Lemma bridge_final_read_with_eof_witness :
  stored_new 1 = inl false
  /\ budget (world0 None None None) = None
  /\ consumer_view (exec (bridge (chunk_reader [[Byte.x41]] ++ [([Byte.x42], Some EOF)]) 1)
                      (world0 None None None))
     = (codec_output bool stored_write stored_close false
          (filter nonempty ([[Byte.x41]] ++ [[Byte.x42]])), EOF).
Proof.
  split; [reflexivity|]. split; [reflexivity|].
  apply (bridge_final_read_with_eof bool stored_new stored_write stored_close
           [[Byte.x41]] [Byte.x42] 1 false (world0 None None None));
    reflexivity.
Defined.

